(** * BlackBone [Thread]: a shallow embedding of [Process/Threads/Thread.h]

    The header defines the [Thread] façade: the two hardware-breakpoint
    enumerations, the accessors [id], [handle], [valid], the comparison
    [operator ==], the ownership-transferring [operator =] and the private
    [ReleaseHandle].  Those are embedded from their bodies.  The remaining
    members are only declared in the header; the ones needed below are
    modelled from the specification and marked as such. *)

From Stdlib Require Import ZArith List Bool Lia.
Import ListNotations.
Local Open Scope Z_scope.

(* ================================================================== *)
(** * Part I.  Definitions                                             *)
(* ================================================================== *)

(** ** Native scalar types *)

Definition DWORD  := Z.
Definition HANDLE := Z.
Definition ptr_t  := Z.

(** [NULL] handle / pointer. *)
Definition NULL : HANDLE := 0.

(** ** [enum HWBPType] and [enum HWBPLength] (Thread.h, lines 24-38) *)

Inductive HWBPType : Set :=
| hwbp_access    (* = 3, read or write *)
| hwbp_write     (* = 1, write only    *)
| hwbp_execute.  (* = 0, execute only  *)

Inductive HWBPLength : Set :=
| hwbp_1    (* = 0, 1 byte  *)
| hwbp_2    (* = 1, 2 bytes *)
| hwbp_4    (* = 3, 4 bytes *)
| hwbp_8.   (* = 2, 8 bytes *)

(** The enumerators' integral values, i.e. what [static_cast<int>] yields. *)
Definition HWBPType_value (t : HWBPType) : Z :=
  match t with
  | hwbp_access  => 3
  | hwbp_write   => 1
  | hwbp_execute => 0
  end.

Definition HWBPLength_value (l : HWBPLength) : Z :=
  match l with
  | hwbp_1 => 0
  | hwbp_2 => 1
  | hwbp_4 => 3
  | hwbp_8 => 2
  end.

(** Number of bytes watched, as the enumerators' comments give it. *)
Definition HWBPLength_bytes (l : HWBPLength) : Z :=
  match l with
  | hwbp_1 => 1
  | hwbp_2 => 2
  | hwbp_4 => 4
  | hwbp_8 => 8
  end.

(** ** [class Thread]: the three private fields (Thread.h, lines 224-227) *)

Record Thread : Set := mkThread
  { _core   : ptr_t;     (* class ProcessCore* _core   *)
    _id     : DWORD;     (* DWORD _id = 0              *)
    _handle : HANDLE }.  (* mutable HANDLE _handle     *)

Definition set_core (v : ptr_t) (t : Thread) : Thread :=
  mkThread v (_id t) (_handle t).
Definition set_id (v : DWORD) (t : Thread) : Thread :=
  mkThread (_core t) v (_handle t).
Definition set_handle (v : HANDLE) (t : Thread) : Thread :=
  mkThread (_core t) (_id t) v.

(** ** The object store

    [operator =] receives [this] and a reference [other]; both may denote
    the same object, and [ReleaseHandle] writes through the [const]
    reference.  Objects therefore live in a store indexed by location, and
    the member functions that write fields are store transformers. *)

Definition loc := nat.
Definition Store := loc -> Thread.

Definition write (p : loc) (t : Thread) (st : Store) : Store :=
  fun q => if Nat.eqb q p then t else st q.

(** [inline DWORD id() const { return _id; }] *)
Definition id (this : loc) (st : Store) : DWORD := _id (st this).

(** [inline HANDLE handle() const { return _handle; }] *)
Definition handle (this : loc) (st : Store) : HANDLE := _handle (st this).

(** [inline bool operator ==(const Thread& other) { return (_id == other._id); }] *)
Definition operator_eq (this other : loc) (st : Store) : bool :=
  _id (st this) =? _id (st other).

(** [inline void ReleaseHandle() const { _handle = NULL; }] *)
Definition ReleaseHandle (this : loc) (st : Store) : Store :=
  write this (set_handle NULL (st this)) st.

(** [Thread& operator =(const Thread& other)]: three field stores, each
    reading [other] from the store as it is at that point, followed by
    [other.ReleaseHandle()]. *)
Definition operator_assign (this other : loc) (st : Store) : Store :=
  let st1 := write this (set_id     (_id     (st  other)) (st  this)) st  in
  let st2 := write this (set_core   (_core   (st1 other)) (st1 this)) st1 in
  let st3 := write this (set_handle (_handle (st2 other)) (st2 this)) st2 in
  ReleaseHandle other st3.

(** The operations whose bodies the header gives, as a small command
    language over the store; the [const] observers leave it untouched. *)
Inductive Op : Set :=
| OpId            (this : loc)
| OpHandle        (this : loc)
| OpEq            (this other : loc)
| OpAssign        (this other : loc)
| OpReleaseHandle (this : loc).

Definition exec (o : Op) (st : Store) : Store :=
  match o with
  | OpId _ | OpHandle _ | OpEq _ _ => st
  | OpAssign this other  => operator_assign this other st
  | OpReleaseHandle this => ReleaseHandle this st
  end.

Fixpoint run (ops : list Op) (st : Store) : Store :=
  match ops with
  | []        => st
  | o :: rest => run rest (exec o st)
  end.

(** [assigns_into x o]: [o] is an assignment whose destination is [x]. *)
Definition assigns_into (x : loc) (o : Op) : bool :=
  match o with
  | OpAssign this _ => Nat.eqb this x
  | _ => false
  end.

(** ** [valid]

    [ExitCode()] is declared in the header but defined elsewhere, and
    [STILL_ACTIVE] comes from the platform headers; both are parameters of
    the embedding.  [ExitCode] reads the state of the operating system,
    which is the type [W] here. *)
Section Valid.
Variable W : Type.
Variable STILL_ACTIVE : DWORD.
Variable ExitCode : Thread -> W -> DWORD.

(** [inline bool valid() const
      { return (_handle != NULL && ExitCode() == STILL_ACTIVE); }] *)
Definition valid (this : loc) (st : Store) (w : W) : bool :=
  negb (_handle (st this) =? NULL) && (ExitCode (st this) w =? STILL_ACTIVE).
End Valid.

(** ** The operating-system boundary

    The header includes the native structures and calls into the native
    thread API; neither is part of the sources at hand. *)

(** Modelled from the spec: the native register block ([_CONTEXT32],
    [_CONTEXT64]), which the header only includes.  The spec treats it as
    an opaque register blob; the part the breakpoint manager touches is
    the four debug-address registers and the debug-control register.
    Registers are unbounded integers: the two widths differ only in the
    size of the fields, which nothing below observes. *)
Record CONTEXT : Set := mkCONTEXT
  { ContextFlags : DWORD;
    Dr0 : Z; Dr1 : Z; Dr2 : Z; Dr3 : Z;
    Dr7 : Z }.

Definition with_flags (f : DWORD) (c : CONTEXT) : CONTEXT :=
  mkCONTEXT f (Dr0 c) (Dr1 c) (Dr2 c) (Dr3 c) (Dr7 c).
Definition with_Dr7 (v : Z) (c : CONTEXT) : CONTEXT :=
  mkCONTEXT (ContextFlags c) (Dr0 c) (Dr1 c) (Dr2 c) (Dr3 c) v.

(** [*(&ctx.Dr0 + i)], read and written. *)
Definition getDr (i : Z) (c : CONTEXT) : Z :=
  if i =? 0 then Dr0 c else if i =? 1 then Dr1 c
  else if i =? 2 then Dr2 c else Dr3 c.
Definition setDr (i : Z) (v : Z) (c : CONTEXT) : CONTEXT :=
  if i =? 0 then mkCONTEXT (ContextFlags c) v (Dr1 c) (Dr2 c) (Dr3 c) (Dr7 c)
  else if i =? 1 then mkCONTEXT (ContextFlags c) (Dr0 c) v (Dr2 c) (Dr3 c) (Dr7 c)
  else if i =? 2 then mkCONTEXT (ContextFlags c) (Dr0 c) (Dr1 c) v (Dr3 c) (Dr7 c)
  else mkCONTEXT (ContextFlags c) (Dr0 c) (Dr1 c) (Dr2 c) v (Dr7 c).

Definition zero_context : CONTEXT := mkCONTEXT 0 0 0 0 0 0.

(** Modelled from the spec: the platform constant selecting the
    debug-register group; its value only labels the calls in the log. *)
Definition CONTEXT_DEBUG_REGISTERS : DWORD := 0x00100010.

(** Modelled from the spec: the four native calls the component makes
    (spec 4.2, 4.3). *)
Inductive OsCall : Set :=
| SuspendThread
| ResumeThread
| GetThreadContext (flags : DWORD)
| SetThreadContext.

(** Modelled from the spec: the state behind the boundary, for the one
    thread a [Thread] object controls: its suspend count ("OS-maintained
    integer tracking nested suspend requests"), its register block, and a
    log of every call made together with its outcome. *)
Record World : Set := mkWorld
  { suspendCount : nat;
    registers    : CONTEXT;
    oslog        : list (OsCall * bool) }.

Definition with_count (n : nat) (w : World) : World :=
  mkWorld n (registers w) (oslog w).
Definition with_registers (c : CONTEXT) (w : World) : World :=
  mkWorld (suspendCount w) c (oslog w).
Definition logged (c : OsCall) (ok : bool) (w : World) : World :=
  mkWorld (suspendCount w) (registers w) (oslog w ++ [(c, ok)]).

(** State monad over the world. *)
Definition M (A : Type) : Type := World -> A * World.
Definition ret {A : Type} (a : A) : M A := fun w => (a, w).
Definition bind {A B : Type} (m : M A) (k : A -> M B) : M B :=
  fun w => let (a, w') := m w in k a w'.

Notation "x <- m ;; k" := (bind m (fun x => k))
  (at level 61, m at next level, right associativity).

(** ** Execution control and context access

    [Suspend], [Resume], [GetContext] and [SetContext] are declared in the
    header and defined in a file that is not part of the sources at hand.
    Which native calls fail is not the component's choice: [fails c w]
    says whether the system refuses call [c] in world [w]. *)
Section Os.
Variable fails : OsCall -> World -> bool.

(** Modelled from the spec: one native call on handle [h].  It is refused
    on a null handle ("resource-unavailable", spec 7) or when the system
    says so; a refused call changes nothing; every call is logged. *)
Definition os_call (c : OsCall) (h : HANDLE) (effect : World -> World) : M bool :=
  fun w =>
    let ok := negb (h =? NULL) && negb (fails c w) in
    (ok, logged c ok (if ok then effect w else w)).

(** Modelled from the spec: the body of [bool Suspend()].  Spec 4.2:
    "wrap the OS suspend-count primitive; return false on failure". *)
Definition Suspend (t : Thread) : M bool :=
  os_call SuspendThread (_handle t)
          (fun w => with_count (S (suspendCount w)) w).

(** Modelled from the spec: the body of [bool Resume()].  Spec 4.2:
    "this component issues exactly one decrement per call". *)
Definition Resume (t : Thread) : M bool :=
  os_call ResumeThread (_handle t)
          (fun w => with_count (Nat.pred (suspendCount w)) w).

(** Modelled from the spec: the frame shared by the bodies of
    [GetContext] and [SetContext].  Spec 4.3, steps 1 to 4: suspend unless
    the caller opted out; perform the register operation; "if the thread
    was suspended by this call (not by the caller), resume it", also when
    the operation failed; return the operation's outcome. *)
Definition bracketed {A : Type} (t : Thread) (dontSuspend : bool) (op : M A) : M A :=
  if dontSuspend then op
  else
    s <- Suspend t ;;
    r <- op ;;
    _ <- (if s then Resume t else ret false) ;;
    ret r.

(** Modelled from the spec: the body of
    [bool GetContext( CONTEXT& ctx, DWORD flags, bool dontSuspend )].  The
    buffer is returned next to the result and is left as it was when the
    call fails. *)
Definition GetContext (t : Thread) (ctx : CONTEXT) (flags : DWORD)
    (dontSuspend : bool) : M (bool * CONTEXT) :=
  bracketed t dontSuspend
    (fun w =>
       let (ok, w') := os_call (GetThreadContext flags) (_handle t) (fun w => w) w in
       ((ok, if ok then with_flags flags (registers w) else ctx), w')).

(** Modelled from the spec: the body of
    [bool SetContext( CONTEXT& ctx, bool dontSuspend )]. *)
Definition SetContext (t : Thread) (ctx : CONTEXT) (dontSuspend : bool) : M bool :=
  bracketed t dontSuspend
    (os_call SetThreadContext (_handle t) (with_registers ctx)).


End Os.

(** ** The debug-control register *)

(** Modelled from the spec: the layout of the debug-control register,
    whose accessors are not part of the sources at hand.  Spec 4.5: "2
    bits of type + 2 bits of length per slot, plus one enable bit per
    slot", in "the native debug-control register format": slot [i] has its
    enable bit at position [2i], its type field at [16+4i] and its length
    field at [18+4i]. *)
Definition enableBit (i : Z) : Z := 2 * i.
Definition rwShift   (i : Z) : Z := 16 + 4 * i.
Definition lenShift  (i : Z) : Z := 18 + 4 * i.

(** Modelled from the spec: reading and writing a two-bit field and an
    enable bit of the debug-control register. *)
Definition getField (shift : Z) (d : Z) : Z := Z.land (Z.shiftr d shift) 3.
Definition setField (shift : Z) (v : Z) (d : Z) : Z :=
  Z.lor (Z.ldiff d (Z.shiftl 3 shift)) (Z.shiftl (Z.land v 3) shift).

Definition getLocal (i : Z) (d : Z) : bool := Z.testbit d (enableBit i).
Definition setLocal (i : Z) (b : bool) (d : Z) : Z :=
  if b then Z.setbit d (enableBit i) else Z.clearbit d (enableBit i).
Definition getRW  (i : Z) (d : Z) : Z := getField (rwShift i) d.
Definition setRW  (i : Z) (v : Z) (d : Z) : Z := setField (rwShift i) v d.
Definition getLen (i : Z) (d : Z) : Z := getField (lenShift i) d.
Definition setLen (i : Z) (v : Z) (d : Z) : Z := setField (lenShift i) v d.

(** Modelled from the spec: the packing of one breakpoint into the
    debug-control register: slot [i] switched on with the given type and
    length. *)
Definition encodeSlot (i : Z) (type : HWBPType) (length : HWBPLength) (d : Z) : Z :=
  setLen i (HWBPLength_value length)
    (setRW i (HWBPType_value type)
       (setLocal i true d)).

(** Modelled from the spec: one selection of "a free slot among 4", the
    lowest free one. *)
Definition firstFree (d : Z) : option Z :=
  find (fun i => negb (getLocal i d)) [0; 1; 2; 3].

(** What the spec asks of a selection: the slot selected is one of the
    four and is free, and no slot is selected only when none is free. *)
Definition selects_free (pick : Z -> option Z) : Prop :=
  forall d i, pick d = Some i -> 0 <= i <= 3 /\ getLocal i d = false.
Definition selects_when_free (pick : Z -> option Z) : Prop :=
  forall d, pick d = None -> forall i, 0 <= i <= 3 -> getLocal i d = true.

(** The spec's view of the registers (section 3): each slot is free or
    occupied by an address, a type and a length; type and length are the
    raw two-bit fields. *)
Inductive Slot : Set :=
| Free
| Occupied (address : ptr_t) (type : Z) (length : Z).

Definition slot (i : Z) (c : CONTEXT) : Slot :=
  if getLocal i (Dr7 c)
  then Occupied (getDr i c) (getRW i (Dr7 c)) (getLen i (Dr7 c))
  else Free.

Definition free_count (d : Z) : nat :=
  length (filter (fun i => negb (getLocal i d)) [0; 1; 2; 3]).

(** ** The hardware-breakpoint manager

    [AddHWBP] and the two [RemoveHWBP] overloads are declared in the
    header and defined elsewhere. *)

(** The three arguments of one [AddHWBP] call. *)
Record Request : Set := mkRequest
  { req_addr : ptr_t; req_type : HWBPType; req_length : HWBPLength }.

(** Modelled from the spec: "the address is misaligned for the requested
    length" (spec 4.5) is the negation of this test. *)
Definition aligned (addr : ptr_t) (length : HWBPLength) : bool :=
  addr mod HWBPLength_bytes length =? 0.

(** Modelled from the spec: "execute type forces length = 1 byte"
    (spec 4.5). *)
Definition effective_length (type : HWBPType) (length : HWBPLength) : HWBPLength :=
  match type with
  | hwbp_execute => hwbp_1
  | _ => length
  end.

(** Modelled from the spec: "locate the slot whose stored address
    matches" (spec 4.5), among the occupied slots. *)
Definition findSlot (ptr : ptr_t) (c : CONTEXT) : option Z :=
  find (fun i => getLocal i (Dr7 c) && (getDr i c =? ptr)) [0; 1; 2; 3].

Section Breakpoints.
Variable fails : OsCall -> World -> bool.
Variable getFreeIndex : Z -> option Z.

(** Modelled from the spec: the body of
    [int AddHWBP( ptr_t addr, HWBPType type, HWBPLength length )].  Spec
    4.5: it "selects a free slot among 4", forces an execute breakpoint to
    one byte, and returns the slot index or -1 "if no slot is free, the
    address is misaligned for the requested length, or the underlying
    debug-register write fails"; the registers are read and written with
    the thread suspended around each access.  The spec does not say which
    free slot is selected: the selection is the parameter
    [getFreeIndex]. *)
Definition AddHWBP (t : Thread) (addr : ptr_t) (type : HWBPType)
    (length : HWBPLength) : M Z :=
  if negb (aligned addr length) then ret (-1)
  else
    r <- GetContext fails t zero_context CONTEXT_DEBUG_REGISTERS false ;;
    if negb (fst r) then ret (-1)
    else
      match getFreeIndex (Dr7 (snd r)) with
      | None => ret (-1)
      | Some i =>
          let dr7 := encodeSlot i type (effective_length type length) (Dr7 (snd r)) in
          ok <- SetContext fails t (setDr i addr (with_Dr7 dr7 (snd r))) false ;;
          ret (if ok then i else -1)
      end.

(** Modelled from the spec: the body of [bool RemoveHWBP( int idx )].
    Spec 4.5: it "clears the slot's enable bit and frees the index for
    reuse"; spec 7: removing a slot that is already free is "a no-op
    success".  An index outside the four slots is refused. *)
Definition RemoveHWBP (t : Thread) (idx : Z) : M bool :=
  if (idx <? 0) || (3 <? idx) then ret false
  else
    r <- GetContext fails t zero_context CONTEXT_DEBUG_REGISTERS false ;;
    if negb (fst r) then ret false
    else if negb (getLocal idx (Dr7 (snd r))) then ret true
    else SetContext fails t (with_Dr7 (setLocal idx false (Dr7 (snd r))) (snd r)) false.

(** Modelled from the spec: the body of [bool RemoveHWBP( ptr_t ptr )].
    Spec 4.5: "removal by address must locate the slot whose stored
    address matches, or report failure if none does". *)
Definition RemoveHWBP_ptr (t : Thread) (ptr : ptr_t) : M bool :=
  r <- GetContext fails t zero_context CONTEXT_DEBUG_REGISTERS false ;;
  if negb (fst r) then ret false
  else
    match findSlot ptr (snd r) with
    | None => ret false
    | Some i =>
        SetContext fails t (with_Dr7 (setLocal i false (Dr7 (snd r))) (snd r)) false
    end.

(** [AddHWBP] called once per request, in order; the results in order. *)
Fixpoint AddAll (t : Thread) (reqs : list Request) : M (list Z) :=
  match reqs with
  | [] => ret []
  | q :: rest =>
      r  <- AddHWBP t (req_addr q) (req_type q) (req_length q) ;;
      rs <- AddAll t rest ;;
      ret (r :: rs)
  end.
End Breakpoints.

(** The register block [AddHWBP] writes when it selects slot [i], in
    terms of the registers [c] the thread had. *)
Definition after_add (i : Z) (addr : ptr_t) (type : HWBPType)
    (length : HWBPLength) (c : CONTEXT) : CONTEXT :=
  setDr i addr
    (with_Dr7 (encodeSlot i type (effective_length type length) (Dr7 c))
       (with_flags CONTEXT_DEBUG_REGISTERS c)).

(** The results of a run of [AddHWBP] calls that are slot indices, i.e.
    not the failure value -1. *)
Definition successes (rs : list Z) : list Z :=
  filter (fun r => negb (r =? -1)) rs.

(** A request is well aligned; a system never refuses a register access. *)
Definition aligned_request (q : Request) : Prop :=
  aligned (req_addr q) (req_length q) = true.
Definition context_access_granted (fails : OsCall -> World -> bool) : Prop :=
  (forall flags w, fails (GetThreadContext flags) w = false) /\
  (forall w, fails SetThreadContext w = false).

(** A system that refuses nothing, one that refuses every register
    access, and a quiet thread with a live handle, for the examples. *)
Definition never_fails : OsCall -> World -> bool := fun _ _ => false.
Definition idle_world : World := mkWorld 0 zero_context [].
Definition live_thread : Thread := mkThread 4096 7 132.

(** A world whose slot 1 holds a four-byte write breakpoint at 8192. *)
Definition one_breakpoint : World :=
  mkWorld 0 (after_add 1 8192 hwbp_write hwbp_4 zero_context) [].

(** Two objects: location 0 holds no handle, every other location holds
    handle 84 to thread 22. *)
Definition st_two : Store :=
  fun p => match p with
           | O => mkThread 500 11 0
           | _ => mkThread 600 22 84
           end.

(** ** Further definitions of the header *)

(** [(uint64_t)x] and [(uint32_t)x]: conversion to an unsigned type keeps
    the value modulo the width. *)
Definition to_uint64 (z : Z) : Z := z mod 2 ^ 64.
Definition to_uint32 (z : Z) : Z := z mod 2 ^ 32.

(** [#define MAXULONG64_2 ((uint64_t)~((uint64_t)0))] *)
Definition MAXULONG64_2 : Z := to_uint64 (Z.lnot (to_uint64 0)).

(** [#define MAXULONG32_2 ((uint32_t)~((uint32_t)0))] *)
Definition MAXULONG32_2 : Z := to_uint32 (Z.lnot (to_uint32 0)).

(** A handle is owned exclusively: no two objects hold the same non-null
    handle. *)
Definition exclusive (st : Store) : Prop :=
  forall p q : loc, p <> q -> handle p st <> NULL -> handle p st <> handle q st.

(** Objects with the same id refer to the same owning process. *)
Definition coherent (st : Store) : Prop :=
  forall p q : loc, id p st = id q st -> _core (st p) = _core (st q).

(** Three objects for the examples: two own a handle, every other
    location holds a default-initialised object ([_id = 0],
    [_handle = NULL]). *)
Definition st_owned : Store :=
  fun p => match p with
           | O => mkThread 500 11 40
           | S O => mkThread 600 22 84
           | _ => mkThread 0 0 NULL
           end.

(* ================================================================== *)
(** * Part II.  Theorems                                               *)
(* ================================================================== *)

(** ** The store *)

Lemma write_same (p : loc) (t : Thread) (st : Store) : write p t st p = t.
Proof. unfold write. now rewrite Nat.eqb_refl. Qed.

Lemma write_other (p q : loc) (t : Thread) (st : Store) :
  q <> p -> write p t st q = st q.
Proof.
  intros Hne. unfold write.
  destruct (Nat.eqb_spec q p) as [E | _]; [contradiction | reflexivity].
Qed.

Create Rewrite HintDb store.
#[local] Hint Rewrite write_same : store.
#[local] Hint Rewrite write_other using congruence : store.

Ltac store_simpl :=
  unfold operator_assign, ReleaseHandle, id, handle; cbn zeta;
  repeat (autorewrite with store; cbn [_id _core _handle set_id set_core set_handle]).

(** What assignment does to the destination, field by field, when source
    and destination are different objects. *)
Lemma assign_dest (a b : loc) (st : Store) :
  a <> b ->
  operator_assign a b st a = mkThread (_core (st b)) (_id (st b)) (_handle (st b)).
Proof. intros Hab. store_simpl. reflexivity. Qed.

(** The source ends up without a handle, also when it is the destination. *)
Lemma assign_source_released (a b : loc) (st : Store) :
  _handle (operator_assign a b st b) = NULL.
Proof. store_simpl. reflexivity. Qed.

Lemma assign_frame (a b c : loc) (st : Store) :
  c <> a -> c <> b -> operator_assign a b st c = st c.
Proof. intros Ha Hb. store_simpl. reflexivity. Qed.

(** The id an object holds after one operation. *)
Lemma exec_id (o : Op) (x : loc) (st : Store) :
  id x (exec o st) =
  match o with
  | OpAssign this other => if Nat.eqb this x then id other st else id x st
  | _ => id x st
  end.
Proof.
  destruct o as [t | t | t u | t u | t]; cbn [exec]; try reflexivity.
  - destruct (Nat.eqb_spec t x) as [-> | Htx].
    + destruct (Nat.eq_dec x u) as [-> | Hxu]; store_simpl; reflexivity.
    + destruct (Nat.eq_dec x u) as [-> | Hxu]; store_simpl; reflexivity.
  - destruct (Nat.eq_dec x t) as [-> | Hxt]; store_simpl; reflexivity.
Qed.

(** ** C1 *)

(** C1. For two distinct objects [a] and [b], after [a = b] the handle of
    [a] is the handle [b] held just before, and [b] holds no handle. *)
Theorem assign_transfers_handle (a b : loc) (st : Store) :
  a <> b ->
  handle a (operator_assign a b st) = handle b st /\
  handle b (operator_assign a b st) = NULL.
Proof.
  intros Hab. split; store_simpl; reflexivity.
Qed.

Lemma assign_transfers_handle_witness :
  handle 0%nat (operator_assign 0%nat 1%nat st_two) = 84 /\
  handle 1%nat (operator_assign 0%nat 1%nat st_two) = NULL.
Proof.
  apply (assign_transfers_handle 0%nat 1%nat st_two). discriminate.
Defined.

(** ** C10 *)

(** C10. Self-assignment of an object that owns a handle loses it: the
    field is first copied onto itself and then released through [other],
    which is the same object. *)
Theorem self_assign_loses_handle (a : loc) (st : Store) :
  handle a st <> NULL ->
  handle a (operator_assign a a st) = NULL /\
  handle a (operator_assign a a st) <> handle a st.
Proof.
  intros Hown.
  assert (E : handle a (operator_assign a a st) = NULL)
    by (store_simpl; reflexivity).
  split; [exact E | rewrite E; congruence].
Qed.

Lemma self_assign_loses_handle_witness :
  handle 1%nat (operator_assign 1%nat 1%nat st_two) = NULL /\
  handle 1%nat (operator_assign 1%nat 1%nat st_two) <> handle 1%nat st_two.
Proof.
  apply (self_assign_loses_handle 1%nat st_two). discriminate.
Defined.

(** ** C2 *)

Lemma run_id_stable (ops : list Op) (x : loc) (st : Store) :
  forallb (fun o => negb (assigns_into x o)) ops = true ->
  id x (run ops st) = id x st.
Proof.
  revert st. induction ops as [| o rest IH]; intros st Hno; cbn [run].
  - reflexivity.
  - cbn [forallb] in Hno. apply andb_true_iff in Hno as [Ho Hrest].
    rewrite (IH _ Hrest), exec_id.
    destruct o as [t | t | t u | t u | t]; try reflexivity.
    cbn [assigns_into] in Ho. apply negb_true_iff in Ho. now rewrite Ho.
Qed.

(** C2, as stated, fails: assignment overwrites the destination's id. *)
Lemma id_changes_on_assign :
  ~ (forall (ops : list Op) (x : loc) (st : Store),
        id x (run ops st) = id x st).
Proof.
  intros Hclaim.
  specialize (Hclaim [OpAssign 0%nat 1%nat] 0%nat st_two).
  vm_compute in Hclaim. discriminate Hclaim.
Qed.

(** C2 (amended). The id of an object is unchanged by every sequence of
    operations that contains no assignment into that object; an assignment
    [a = b] sets the id of [a] to the id of [b] and leaves the id of [b]
    as it was. *)
Theorem id_stable_except_assign (ops : list Op) (x : loc) (st : Store) :
  forallb (fun o => negb (assigns_into x o)) ops = true ->
  id x (run ops st) = id x st /\
  (forall b : loc, id x (operator_assign x b st) = id b st) /\
  (forall a : loc, id x (operator_assign a x st) = id x st).
Proof.
  intros Hno. split; [now apply run_id_stable |]. split.
  - intros b. change (operator_assign x b st) with (exec (OpAssign x b) st).
    rewrite exec_id. now rewrite Nat.eqb_refl.
  - intros a. change (operator_assign a x st) with (exec (OpAssign a x) st).
    rewrite exec_id. destruct (Nat.eqb_spec a x) as [-> | _]; reflexivity.
Qed.

Lemma id_stable_except_assign_witness :
  id 1%nat (run [OpAssign 0%nat 1%nat; OpReleaseHandle 1%nat; OpEq 1%nat 0%nat] st_two)
    = id 1%nat st_two /\
  (forall b : loc, id 1%nat (operator_assign 1%nat b st_two) = id b st_two) /\
  (forall a : loc, id 1%nat (operator_assign a 1%nat st_two) = id 1%nat st_two).
Proof.
  apply (id_stable_except_assign
           [OpAssign 0%nat 1%nat; OpReleaseHandle 1%nat; OpEq 1%nat 0%nat]
           1%nat st_two).
  reflexivity.
Defined.

(** ** C3 *)

(** C3. [valid()] is true exactly when the handle is not null and
    [ExitCode()] is the still-running sentinel. *)
Theorem valid_iff (W : Type) (STILL_ACTIVE : DWORD)
    (ExitCode : Thread -> W -> DWORD) (this : loc) (st : Store) (w : W) :
  valid W STILL_ACTIVE ExitCode this st w = true <->
  handle this st <> NULL /\ ExitCode (st this) w = STILL_ACTIVE.
Proof.
  unfold valid, handle. rewrite andb_true_iff, negb_true_iff.
  rewrite Z.eqb_neq, Z.eqb_eq. reflexivity.
Qed.

(** ** C9 *)

(** C9. [a == b] holds exactly when the ids agree; handle and owning
    process play no part, so two objects with different handles and
    different cores but the same id compare equal. *)
Theorem operator_eq_iff_id (a b : loc) (st : Store) :
  (operator_eq a b st = true <-> id a st = id b st) /\
  (forall (c1 c2 : ptr_t) (h1 h2 : HANDLE) (i : DWORD),
      operator_eq a b
        (write a (mkThread c1 i h1) (write b (mkThread c2 i h2) st)) = true).
Proof.
  split.
  - unfold operator_eq, id. apply Z.eqb_eq.
  - intros c1 c2 h1 h2 i. unfold operator_eq.
    destruct (Nat.eq_dec b a) as [-> | Hba].
    + rewrite write_same. apply Z.eqb_refl.
    + rewrite write_same, (write_other a b) by exact Hba.
      rewrite write_same. apply Z.eqb_refl.
Qed.

(** ** Bits of the debug-control register *)

Lemma testbit_three (m : Z) :
  Z.testbit 3 m = (0 <=? m) && (m <? 2).
Proof.
  destruct (Z.leb_spec 0 m) as [Hm | Hm]; cbn [andb].
  - change 3 with (Z.ones 2). apply Z.testbit_ones_nonneg; lia.
  - apply Z.testbit_neg_r. exact Hm.
Qed.

Lemma testbit_setField (shift v d n : Z) :
  0 <= n ->
  Z.testbit (setField shift v d) n =
  if (shift <=? n) && (n <? shift + 2) then Z.testbit v (n - shift)
  else Z.testbit d n.
Proof.
  intros Hn. unfold setField.
  rewrite Z.lor_spec, Z.ldiff_spec, !Z.shiftl_spec by exact Hn.
  rewrite Z.land_spec, testbit_three.
  destruct (Z.leb_spec shift n) as [Hlo | Hlo];
    destruct (Z.ltb_spec n (shift + 2)) as [Hhi | Hhi]; cbn [andb].
  - replace (0 <=? n - shift) with true by (symmetry; apply Z.leb_le; lia).
    replace (n - shift <? 2) with true by (symmetry; apply Z.ltb_lt; lia).
    cbn. now rewrite andb_false_r, andb_true_r.
  - replace (n - shift <? 2) with false by (symmetry; apply Z.ltb_ge; lia).
    rewrite !andb_false_r. cbn. now rewrite andb_true_r, orb_false_r.
  - replace (0 <=? n - shift) with false by (symmetry; apply Z.leb_gt; lia).
    cbn. now rewrite andb_false_r, andb_true_r, orb_false_r.
  - replace (0 <=? n - shift) with false by (symmetry; apply Z.leb_gt; lia).
    cbn. now rewrite andb_false_r, andb_true_r, orb_false_r.
Qed.

Lemma testbit_setLocal (i : Z) (b : bool) (d n : Z) :
  0 <= i ->
  Z.testbit (setLocal i b d) n =
  if n =? enableBit i then b else Z.testbit d n.
Proof.
  intros Hi. unfold setLocal, enableBit.
  destruct b.
  - rewrite Z.setbit_eqb by lia. rewrite (Z.eqb_sym n).
    now destruct (2 * i =? n).
  - rewrite Z.clearbit_eqb. rewrite (Z.eqb_sym n).
    destruct (2 * i =? n); cbn; [apply andb_false_r | apply andb_true_r].
Qed.

Lemma testbit_getField (shift d m : Z) :
  0 <= shift -> 0 <= m ->
  Z.testbit (getField shift d) m = Z.testbit d (m + shift) && (m <? 2).
Proof.
  intros Hs Hm. unfold getField.
  rewrite Z.land_spec, Z.shiftr_spec, testbit_three by exact Hm.
  replace (0 <=? m) with true by (symmetry; apply Z.leb_le; lia).
  reflexivity.
Qed.

Lemma getField_setField_same (shift v d : Z) :
  0 <= shift -> getField shift (setField shift v d) = Z.land v 3.
Proof.
  intros Hs. apply Z.bits_inj'. intros m Hm.
  rewrite testbit_getField, testbit_setField, Z.land_spec, testbit_three by lia.
  replace (m + shift - shift) with m by lia.
  replace (shift <=? m + shift) with true by (symmetry; apply Z.leb_le; lia).
  replace (0 <=? m) with true by (symmetry; apply Z.leb_le; lia).
  destruct (Z.ltb_spec m 2) as [H2 | H2].
  - replace (m + shift <? shift + 2) with true by (symmetry; apply Z.ltb_lt; lia).
    cbn [andb]. reflexivity.
  - now rewrite !andb_false_r.
Qed.

Lemma getField_setField_other (s1 s2 v d : Z) :
  0 <= s1 -> 0 <= s2 -> s1 + 2 <= s2 \/ s2 + 2 <= s1 ->
  getField s1 (setField s2 v d) = getField s1 d.
Proof.
  intros H1 H2 Hapart. apply Z.bits_inj'. intros m Hm.
  rewrite !testbit_getField, testbit_setField by lia.
  destruct (Z.ltb_spec m 2) as [Hm2 | Hm2]; [| now rewrite !andb_false_r].
  rewrite !andb_true_r.
  destruct (Z.leb_spec s2 (m + s1)) as [Hlo | Hlo];
    destruct (Z.ltb_spec (m + s1) (s2 + 2)) as [Hhi | Hhi]; cbn [andb];
    try reflexivity.
  exfalso; lia.
Qed.

Lemma getField_setLocal (shift i : Z) (b : bool) (d : Z) :
  0 <= shift -> 0 <= i -> enableBit i < shift ->
  getField shift (setLocal i b d) = getField shift d.
Proof.
  intros Hs Hi Hlt. apply Z.bits_inj'. intros m Hm.
  rewrite !testbit_getField, testbit_setLocal by lia.
  destruct (Z.eqb_spec (m + shift) (enableBit i)) as [E | _];
    [exfalso; lia | reflexivity].
Qed.

(** Every bit of the register after slot [i] has been switched on. *)
Lemma testbit_encodeSlot (i : Z) (type : HWBPType) (length : HWBPLength) (d n : Z) :
  0 <= i -> 0 <= n ->
  Z.testbit (encodeSlot i type length d) n =
  if (lenShift i <=? n) && (n <? lenShift i + 2)
  then Z.testbit (HWBPLength_value length) (n - lenShift i)
  else if (rwShift i <=? n) && (n <? rwShift i + 2)
  then Z.testbit (HWBPType_value type) (n - rwShift i)
  else if n =? enableBit i then true
  else Z.testbit d n.
Proof.
  intros Hi Hn. unfold encodeSlot, setLen, setRW.
  rewrite !testbit_setField, testbit_setLocal by assumption.
  reflexivity.
Qed.

Lemma getLocal_encodeSlot (i j : Z) (type : HWBPType) (length : HWBPLength) (d : Z) :
  0 <= i <= 3 -> 0 <= j <= 3 ->
  getLocal j (encodeSlot i type length d) = (j =? i) || getLocal j d.
Proof.
  intros Hi Hj. unfold getLocal.
  rewrite testbit_encodeSlot by (unfold enableBit; lia).
  unfold lenShift, rwShift, enableBit.
  replace (18 + 4 * i <=? 2 * j) with false by (symmetry; apply Z.leb_gt; lia).
  replace (16 + 4 * i <=? 2 * j) with false by (symmetry; apply Z.leb_gt; lia).
  cbn [andb].
  destruct (Z.eqb_spec (2 * j) (2 * i)) as [E | E];
    destruct (Z.eqb_spec j i) as [E' | E']; try reflexivity; exfalso; lia.
Qed.

Lemma getLocal_setLocal (i j : Z) (b : bool) (d : Z) :
  0 <= i ->
  getLocal j (setLocal i b d) = if j =? i then b else getLocal j d.
Proof.
  intros Hi. unfold getLocal. rewrite testbit_setLocal by exact Hi.
  unfold enableBit.
  destruct (Z.eqb_spec (2 * j) (2 * i)) as [E | E];
    destruct (Z.eqb_spec j i) as [E' | E']; try reflexivity; exfalso; lia.
Qed.

Lemma value_land_3_type (type : HWBPType) :
  Z.land (HWBPType_value type) 3 = HWBPType_value type.
Proof. now destruct type. Qed.

Lemma value_land_3_length (length : HWBPLength) :
  Z.land (HWBPLength_value length) 3 = HWBPLength_value length.
Proof. now destruct length. Qed.

Lemma getLen_encodeSlot (i : Z) (type : HWBPType) (length : HWBPLength) (d : Z) :
  0 <= i -> getLen i (encodeSlot i type length d) = HWBPLength_value length.
Proof.
  intros Hi. unfold getLen, encodeSlot, setLen.
  rewrite getField_setField_same by (unfold lenShift; lia).
  apply value_land_3_length.
Qed.

Lemma getRW_encodeSlot (i : Z) (type : HWBPType) (length : HWBPLength) (d : Z) :
  0 <= i -> getRW i (encodeSlot i type length d) = HWBPType_value type.
Proof.
  intros Hi. unfold getRW, encodeSlot, setLen, setRW.
  rewrite getField_setField_other by (unfold lenShift, rwShift; lia).
  rewrite getField_setField_same by (unfold rwShift; lia).
  apply value_land_3_type.
Qed.

(** ** Context access *)

Ltac os_unfold :=
  unfold GetContext, SetContext, bracketed, bind, ret,
         Suspend, Resume, os_call, logged, with_count, with_registers;
  cbn [fst snd suspendCount registers oslog].

Ltac os_cases :=
  repeat match goal with
         | |- context [?f ?c ?w] =>
             match type of (f c w) with
             | bool => match type of c with
                       | OsCall =>
                           let F := fresh "F" in destruct (f c w) eqn:F; cbn
                       end
             end
         end.

Lemma GetContext_registers fails t ctx flags dontSuspend w :
  registers (snd (GetContext fails t ctx flags dontSuspend w)) = registers w.
Proof.
  destruct dontSuspend; os_unfold;
    destruct (_handle t =? NULL); cbn; os_cases; reflexivity.
Qed.

Lemma GetContext_result fails t ctx flags dontSuspend w :
  fst (fst (GetContext fails t ctx flags dontSuspend w)) = true ->
  snd (fst (GetContext fails t ctx flags dontSuspend w))
    = with_flags flags (registers w).
Proof.
  destruct dontSuspend; os_unfold;
    destruct (_handle t =? NULL); cbn; os_cases;
    intros H; try discriminate H; reflexivity.
Qed.

Lemma GetContext_succeeds fails t ctx flags dontSuspend w :
  _handle t <> NULL ->
  (forall w', fails (GetThreadContext flags) w' = false) ->
  fst (fst (GetContext fails t ctx flags dontSuspend w)) = true.
Proof.
  intros Hh Hnf. apply Z.eqb_neq in Hh.
  destruct dontSuspend; os_unfold; rewrite Hh, !Hnf; cbn;
    os_cases; rewrite ?Hnf; reflexivity.
Qed.

Lemma SetContext_registers fails t ctx dontSuspend w :
  registers (snd (SetContext fails t ctx dontSuspend w)) =
  if fst (SetContext fails t ctx dontSuspend w) then ctx else registers w.
Proof.
  destruct dontSuspend; os_unfold;
    destruct (_handle t =? NULL); cbn; os_cases; reflexivity.
Qed.

Lemma SetContext_succeeds fails t ctx dontSuspend w :
  _handle t <> NULL ->
  (forall w', fails SetThreadContext w' = false) ->
  fst (SetContext fails t ctx dontSuspend w) = true.
Proof.
  intros Hh Hnf. apply Z.eqb_neq in Hh.
  destruct dontSuspend; os_unfold; rewrite Hh, !Hnf; cbn;
    os_cases; rewrite ?Hnf; reflexivity.
Qed.

(** ** C7 *)



(** ** The selection policy and the count of free slots *)

Lemma firstFree_selects_free : selects_free firstFree.
Proof.
  intros d i. unfold firstFree. intros Hfind.
  apply find_some in Hfind as [Hin Hfree].
  apply negb_true_iff in Hfree. split; [| exact Hfree].
  cbn in Hin. lia.
Qed.

Lemma firstFree_selects_when_free : selects_when_free firstFree.
Proof.
  intros d Hnone i Hi. unfold firstFree in Hnone.
  assert (Hin : In i [0; 1; 2; 3]) by (cbn; lia).
  pose proof (find_none _ _ Hnone i Hin) as Hocc. cbn beta in Hocc.
  now apply negb_false_iff in Hocc.
Qed.

Lemma four_cases (i : Z) : 0 <= i <= 3 -> i = 0 \/ i = 1 \/ i = 2 \/ i = 3.
Proof. lia. Qed.

Lemma free_count_zero (d : Z) :
  free_count d = 0%nat <-> (forall i, 0 <= i <= 3 -> getLocal i d = true).
Proof.
  unfold free_count. cbn [filter]. split.
  - intros Hz i Hi.
    destruct (getLocal 0 d) eqn:E0, (getLocal 1 d) eqn:E1,
             (getLocal 2 d) eqn:E2, (getLocal 3 d) eqn:E3;
      cbn in Hz; try discriminate Hz.
    destruct (four_cases i Hi) as [-> | [-> | [-> | ->]]]; assumption.
  - intros Hall.
    rewrite (Hall 0), (Hall 1), (Hall 2), (Hall 3) by lia. reflexivity.
Qed.

Lemma free_count_le_4 (d : Z) : (free_count d <= 4)%nat.
Proof.
  unfold free_count. cbn [filter].
  destruct (getLocal 0 d), (getLocal 1 d), (getLocal 2 d), (getLocal 3 d);
    cbn; lia.
Qed.

Lemma free_count_all_free (d : Z) :
  (forall i, 0 <= i <= 3 -> getLocal i d = false) -> free_count d = 4%nat.
Proof.
  intros Hall. unfold free_count. cbn [filter].
  rewrite (Hall 0), (Hall 1), (Hall 2), (Hall 3) by lia. reflexivity.
Qed.

Lemma free_count_encodeSlot (i : Z) (type : HWBPType) (length : HWBPLength) (d : Z) :
  0 <= i <= 3 -> getLocal i d = false ->
  S (free_count (encodeSlot i type length d)) = free_count d.
Proof.
  intros Hi Hfree. unfold free_count. cbn [filter].
  rewrite !getLocal_encodeSlot by lia.
  destruct (four_cases i Hi) as [-> | [-> | [-> | ->]]];
    revert Hfree;
    generalize (getLocal 0 d) (getLocal 1 d) (getLocal 2 d) (getLocal 3 d);
    intros b0 b1 b2 b3 Hfree;
    destruct b0, b1, b2, b3; try discriminate Hfree; reflexivity.
Qed.

(** ** Registers after [AddHWBP] and [RemoveHWBP] *)

Lemma Dr7_setDr (i v : Z) (c : CONTEXT) : Dr7 (setDr i v c) = Dr7 c.
Proof.
  unfold setDr.
  destruct (i =? 0); [reflexivity |].
  destruct (i =? 1); [reflexivity |].
  destruct (i =? 2); reflexivity.
Qed.

Lemma getDr_setDr_same (i v : Z) (c : CONTEXT) : getDr i (setDr i v c) = v.
Proof.
  unfold setDr, getDr.
  destruct (i =? 0) eqn:E0; [cbn; reflexivity |].
  destruct (i =? 1) eqn:E1; [cbn; reflexivity |].
  destruct (i =? 2) eqn:E2; cbn; reflexivity.
Qed.

Lemma Dr7_after_add i addr type length c :
  Dr7 (after_add i addr type length c)
    = encodeSlot i type (effective_length type length) (Dr7 c).
Proof. unfold after_add. now rewrite Dr7_setDr. Qed.

Lemma AddHWBP_cases fails pick t addr type length w :
  (fst (AddHWBP fails pick t addr type length w) = -1 /\
   registers (snd (AddHWBP fails pick t addr type length w)) = registers w) \/
  (exists i,
      pick (Dr7 (registers w)) = Some i /\
      fst (AddHWBP fails pick t addr type length w) = i /\
      registers (snd (AddHWBP fails pick t addr type length w))
        = after_add i addr type length (registers w)).
Proof.
  unfold AddHWBP.
  destruct (aligned addr length); cbn [negb]; [| left; split; reflexivity].
  unfold bind, ret.
  pose proof (GetContext_registers fails t zero_context
                CONTEXT_DEBUG_REGISTERS false w) as HR.
  pose proof (GetContext_result fails t zero_context
                CONTEXT_DEBUG_REGISTERS false w) as HC.
  destruct (GetContext fails t zero_context CONTEXT_DEBUG_REGISTERS false w)
    as [[ok c] w1].
  cbn [fst snd] in *.
  destruct ok; cbn [negb]; [| left; split; [reflexivity | exact HR]].
  rewrite (HC eq_refl).
  change (Dr7 (with_flags CONTEXT_DEBUG_REGISTERS (registers w)))
    with (Dr7 (registers w)).
  destruct (pick (Dr7 (registers w))) as [i |] eqn:Hpick;
    [| left; split; [reflexivity | exact HR]].
  match goal with
  | |- context [SetContext fails t ?c' false w1] =>
      pose proof (SetContext_registers fails t c' false w1) as HS;
      destruct (SetContext fails t c' false w1) as [ok' w2]
  end.
  cbn [fst snd] in *.
  destruct ok'.
  - right. exists i. repeat split. exact HS.
  - left. split; [reflexivity | congruence].
Qed.

Lemma AddHWBP_granted fails pick t addr type length w :
  context_access_granted fails -> _handle t <> NULL ->
  aligned addr length = true ->
  match pick (Dr7 (registers w)) with
  | Some i =>
      fst (AddHWBP fails pick t addr type length w) = i /\
      registers (snd (AddHWBP fails pick t addr type length w))
        = after_add i addr type length (registers w)
  | None =>
      fst (AddHWBP fails pick t addr type length w) = -1 /\
      registers (snd (AddHWBP fails pick t addr type length w)) = registers w
  end.
Proof.
  intros [Hget Hset] Hh Hal.
  unfold AddHWBP. rewrite Hal. cbn [negb]. unfold bind, ret.
  pose proof (GetContext_registers fails t zero_context
                CONTEXT_DEBUG_REGISTERS false w) as HR.
  pose proof (GetContext_result fails t zero_context
                CONTEXT_DEBUG_REGISTERS false w) as HC.
  pose proof (GetContext_succeeds fails t zero_context
                CONTEXT_DEBUG_REGISTERS false w Hh (Hget _)) as HG.
  destruct (GetContext fails t zero_context CONTEXT_DEBUG_REGISTERS false w)
    as [[ok c] w1].
  cbn [fst snd] in *. subst ok. cbn [negb].
  rewrite (HC eq_refl).
  change (Dr7 (with_flags CONTEXT_DEBUG_REGISTERS (registers w)))
    with (Dr7 (registers w)).
  destruct (pick (Dr7 (registers w))) as [i |]; [| split; [reflexivity | exact HR]].
  match goal with
  | |- context [SetContext fails t ?c' false w1] =>
      pose proof (SetContext_registers fails t c' false w1) as HS;
      pose proof (SetContext_succeeds fails t c' false w1 Hh Hset) as HK;
      destruct (SetContext fails t c' false w1) as [ok' w2]
  end.
  cbn [fst snd] in *. subst ok'. split; [reflexivity | exact HS].
Qed.

Lemma RemoveHWBP_granted fails t idx w :
  context_access_granted fails -> _handle t <> NULL -> 0 <= idx <= 3 ->
  fst (RemoveHWBP fails t idx w) = true /\
  forall j, getLocal j (Dr7 (registers (snd (RemoveHWBP fails t idx w))))
            = if j =? idx then false else getLocal j (Dr7 (registers w)).
Proof.
  intros [Hget Hset] Hh Hidx.
  unfold RemoveHWBP.
  replace (idx <? 0) with false by (symmetry; apply Z.ltb_ge; lia).
  replace (3 <? idx) with false by (symmetry; apply Z.ltb_ge; lia).
  cbn [orb]. unfold bind, ret.
  pose proof (GetContext_registers fails t zero_context
                CONTEXT_DEBUG_REGISTERS false w) as HR.
  pose proof (GetContext_result fails t zero_context
                CONTEXT_DEBUG_REGISTERS false w) as HC.
  pose proof (GetContext_succeeds fails t zero_context
                CONTEXT_DEBUG_REGISTERS false w Hh (Hget _)) as HG.
  destruct (GetContext fails t zero_context CONTEXT_DEBUG_REGISTERS false w)
    as [[ok c] w1].
  cbn [fst snd] in *. subst ok. cbn [negb].
  rewrite (HC eq_refl).
  change (Dr7 (with_flags CONTEXT_DEBUG_REGISTERS (registers w)))
    with (Dr7 (registers w)).
  destruct (getLocal idx (Dr7 (registers w))) eqn:Hocc; cbn [negb].
  - match goal with
    | |- context [SetContext fails t ?c' false w1] =>
        pose proof (SetContext_registers fails t c' false w1) as HS;
        pose proof (SetContext_succeeds fails t c' false w1 Hh Hset) as HK;
        destruct (SetContext fails t c' false w1) as [ok' w2]
    end.
    cbn [fst snd] in *. subst ok'. split; [reflexivity |].
    intros j. rewrite HS. cbn [Dr7 with_Dr7].
    apply getLocal_setLocal. lia.
  - cbn [fst snd]. split; [reflexivity |].
    intros j. rewrite HR.
    destruct (Z.eqb_spec j idx) as [-> | _]; [exact Hocc | reflexivity].
Qed.

(** Any number of well-aligned requests that fits the free slots is
    served with pairwise different slots, all of them free beforehand. *)
Lemma AddAll_granted fails pick t :
  selects_free pick -> selects_when_free pick ->
  context_access_granted fails -> _handle t <> NULL ->
  forall reqs w,
    Forall aligned_request reqs ->
    (length reqs <= free_count (Dr7 (registers w)))%nat ->
    let rs := fst (AddAll fails pick t reqs w) in
    let w' := snd (AddAll fails pick t reqs w) in
    length rs = length reqs /\
    NoDup rs /\
    Forall (fun r => 0 <= r <= 3 /\ getLocal r (Dr7 (registers w)) = false) rs /\
    (free_count (Dr7 (registers w')) + length reqs)%nat
      = free_count (Dr7 (registers w)).
Proof.
  intros Hsound Hcomplete Hgranted Hh.
  induction reqs as [| q rest IH]; intros w Hal Hfit; cbn zeta.
  - cbn [AddAll ret fst snd length].
    split; [reflexivity |]. split; [constructor |]. split; [constructor | lia].
  - inversion Hal as [| q' rest' Hq Hrest]; subst.
    cbn [AddAll]. unfold bind, ret.
    pose proof (AddHWBP_granted fails pick t (req_addr q) (req_type q)
                  (req_length q) w Hgranted Hh Hq) as Hstep.
    destruct (pick (Dr7 (registers w))) as [i |] eqn:Hpick.
    + destruct (Hsound _ _ Hpick) as [Hi Hfree].
      destruct (AddHWBP fails pick t (req_addr q) (req_type q) (req_length q) w)
        as [r w1].
      cbn [fst snd] in Hstep. destruct Hstep as [-> Hregs].
      assert (Hd1 : Dr7 (registers w1)
                    = encodeSlot i (req_type q)
                        (effective_length (req_type q) (req_length q))
                        (Dr7 (registers w)))
        by (rewrite Hregs; apply Dr7_after_add).
      pose proof (free_count_encodeSlot i (req_type q)
                    (effective_length (req_type q) (req_length q))
                    (Dr7 (registers w)) Hi Hfree) as Hcount.
      rewrite <- Hd1 in Hcount.
      cbn [length] in Hfit.
      specialize (IH w1 Hrest ltac:(lia)). cbn zeta in IH.
      destruct (AddAll fails pick t rest w1) as [rs w2].
      cbn [fst snd] in *.
      destruct IH as (Hlen & Hnd & Hall & Hfc).
      assert (Hall' : Forall (fun r => (0 <= r <= 3 /\
                                 getLocal r (Dr7 (registers w)) = false) /\ r <> i) rs).
      { eapply Forall_impl; [| exact Hall].
        intros r [Hr Hrfree]. rewrite Hd1, getLocal_encodeSlot in Hrfree by lia.
        apply orb_false_iff in Hrfree as [Hne Hrw].
        apply Z.eqb_neq in Hne. auto. }
      repeat split.
      * cbn [length]. now rewrite Hlen.
      * constructor; [| exact Hnd].
        intros Hin. rewrite Forall_forall in Hall'.
        destruct (Hall' _ Hin) as [_ Hne]. now apply Hne.
      * constructor; [split; assumption |].
        eapply Forall_impl; [| exact Hall']. now intros r [Hr _].
      * cbn [length]. lia.
    + exfalso. cbn [length] in Hfit.
      assert (Hz : free_count (Dr7 (registers w)) = 0%nat)
        by (apply free_count_zero; exact (Hcomplete _ Hpick)).
      lia.
Qed.

(** ** C4 *)

(** Whatever calls are refused and whatever the arguments, the indices
    handed out by a run of calls are pairwise different slots that were
    free when the run began. *)
Lemma AddAll_successes fails pick t :
  selects_free pick ->
  forall reqs w,
    NoDup (successes (fst (AddAll fails pick t reqs w))) /\
    Forall (fun r => 0 <= r <= 3 /\ getLocal r (Dr7 (registers w)) = false)
           (successes (fst (AddAll fails pick t reqs w))).
Proof.
  intros Hsound.
  induction reqs as [| q rest IH]; intros w.
  - cbn. split; constructor.
  - cbn [AddAll]. unfold bind, ret.
    pose proof (AddHWBP_cases fails pick t (req_addr q) (req_type q)
                  (req_length q) w) as Hstep.
    destruct (AddHWBP fails pick t (req_addr q) (req_type q) (req_length q) w)
      as [r w1].
    specialize (IH w1).
    destruct (AddAll fails pick t rest w1) as [rs w2].
    cbn [fst snd] in *. destruct IH as [Hnd Hall].
    destruct Hstep as [[-> Hregs] | (i & Hpick & -> & Hregs)].
    + cbn [successes filter]. change (-1 =? -1) with true. cbn [negb].
      fold (successes rs). rewrite <- Hregs. split; assumption.
    + destruct (Hsound _ _ Hpick) as [Hi Hfree].
      cbn [successes filter].
      replace (i =? -1) with false by (symmetry; apply Z.eqb_neq; lia).
      cbn [negb]. fold (successes rs).
      assert (Hall' : Forall (fun r => (0 <= r <= 3 /\
                                 getLocal r (Dr7 (registers w)) = false) /\ r <> i)
                             (successes rs)).
      { eapply Forall_impl; [| exact Hall].
        intros r [Hr Hrfree].
        rewrite Hregs, Dr7_after_add, getLocal_encodeSlot in Hrfree by lia.
        apply orb_false_iff in Hrfree as [Hne Hrw].
        apply Z.eqb_neq in Hne. auto. }
      split.
      * constructor; [| exact Hnd].
        intros Hin. rewrite Forall_forall in Hall'.
        destruct (Hall' _ Hin) as [_ Hne]. now apply Hne.
      * constructor; [split; assumption |].
        eapply Forall_impl; [| exact Hall']. now intros r [Hr _].
Qed.

Lemma AddHWBP_result_range fails pick t addr type length w :
  selects_free pick ->
  fst (AddHWBP fails pick t addr type length w) = -1 \/
  0 <= fst (AddHWBP fails pick t addr type length w) <= 3.
Proof.
  intros Hsound.
  destruct (AddHWBP_cases fails pick t addr type length w)
    as [[Hr _] | (i & Hpick & Hr & _)].
  - left. exact Hr.
  - right. rewrite Hr. exact (proj1 (Hsound _ _ Hpick)).
Qed.

(** C4. With every slot free, four calls of [AddHWBP] return four
    pairwise different indices, each in [0,3]; a fifth call returns -1;
    after that, [RemoveHWBP(idx)] succeeds for each [idx] in [0,3] and the
    next [AddHWBP] returns [idx] again; and whatever the state, the
    arguments and the calls refused, a result of [AddHWBP] other than -1
    lies in [0,3] and the indices returned by successive calls are
    pairwise different.  The
    calls that are to return an index are calls that do not fail for one
    of the other two reasons of spec 4.5: their addresses are aligned for
    their lengths and the register accesses are granted on a live handle.
    The free slot selected is the lowest one. *)
Theorem AddHWBP_slot_allocation
    (fails : OsCall -> World -> bool) (t : Thread)
    (reqs : list Request) (q5 q6 : Request) (idx : Z) (w0 : World) :
  context_access_granted fails -> _handle t <> NULL ->
  (forall i, 0 <= i <= 3 -> getLocal i (Dr7 (registers w0)) = false) ->
  length reqs = 4%nat -> Forall aligned_request reqs ->
  aligned_request q6 -> 0 <= idx <= 3 ->
  let (rs, w4) := AddAll fails firstFree t reqs w0 in
  let (r5, w5) :=
    AddHWBP fails firstFree t (req_addr q5) (req_type q5) (req_length q5) w4 in
  let (removed, w6) := RemoveHWBP fails t idx w5 in
  let r6 :=
    fst (AddHWBP fails firstFree t (req_addr q6) (req_type q6) (req_length q6) w6) in
  length rs = 4%nat /\ NoDup rs /\ Forall (fun r => 0 <= r <= 3) rs /\
  r5 = -1 /\ removed = true /\ r6 = idx /\
  (forall fails' t' a ty len w,
      fst (AddHWBP fails' firstFree t' a ty len w) = -1 \/
      0 <= fst (AddHWBP fails' firstFree t' a ty len w) <= 3) /\
  (forall fails' t' reqs' w,
      NoDup (successes (fst (AddAll fails' firstFree t' reqs' w)))).
Proof.
  intros Hgranted Hh Hfree Hlen Hal Hq6 Hidx.
  pose proof firstFree_selects_free as Hsound.
  pose proof firstFree_selects_when_free as Hcomplete.
  pose proof (free_count_all_free _ Hfree) as Hfc0.
  pose proof (AddAll_granted fails firstFree t Hsound Hcomplete Hgranted Hh
                reqs w0 Hal ltac:(lia)) as Hfour.
  cbn zeta in Hfour.
  destruct (AddAll fails firstFree t reqs w0) as [rs w4]. cbn [fst snd] in Hfour.
  destruct Hfour as (Hrl & Hnd & Hrs & Hfc4).
  assert (Hfull : forall i, 0 <= i <= 3 -> getLocal i (Dr7 (registers w4)) = true)
    by (apply free_count_zero; lia).
  (* the fifth call *)
  pose proof (AddHWBP_cases fails firstFree t (req_addr q5) (req_type q5)
                (req_length q5) w4) as H5.
  destruct (AddHWBP fails firstFree t (req_addr q5) (req_type q5) (req_length q5) w4)
    as [r5 w5]. cbn [fst snd] in H5.
  assert (H5' : r5 = -1 /\ registers w5 = registers w4).
  { destruct H5 as [H5 | (i & Hpick & _)]; [exact H5 | exfalso].
    destruct (Hsound _ _ Hpick) as [Hi Hif].
    rewrite (Hfull i Hi) in Hif. discriminate Hif. }
  destruct H5' as [Hr5 Hregs5].
  (* the removal *)
  pose proof (RemoveHWBP_granted fails t idx w5 Hgranted Hh Hidx) as H6.
  destruct (RemoveHWBP fails t idx w5) as [removed w6]. cbn [fst snd] in H6.
  destruct H6 as [Hrem Hbits6].
  (* the call after the removal *)
  pose proof (AddHWBP_granted fails firstFree t (req_addr q6) (req_type q6)
                (req_length q6) w6 Hgranted Hh Hq6) as H7.
  cbn zeta.
  split; [lia |]. split; [exact Hnd |].
  split; [eapply Forall_impl; [| exact Hrs]; now intros r [Hr _] |].
  split; [exact Hr5 |]. split; [exact Hrem |].
  split; [| split;
             [intros fails' t' a ty len w; now apply AddHWBP_result_range
             | intros fails' t' reqs' w;
               exact (proj1 (AddAll_successes fails' firstFree t' Hsound reqs' w))]].
  destruct (firstFree (Dr7 (registers w6))) as [i |] eqn:Hpick.
  - destruct H7 as [-> _].
    destruct (Hsound _ _ Hpick) as [Hi Hif].
    rewrite Hbits6 in Hif.
    destruct (Z.eqb_spec i idx) as [E | _]; [exact E |].
    rewrite Hregs5, (Hfull i Hi) in Hif. discriminate Hif.
  - exfalso. pose proof (Hcomplete _ Hpick idx Hidx) as Hocc.
    rewrite Hbits6, Z.eqb_refl in Hocc. discriminate Hocc.
Qed.

Lemma AddHWBP_slot_allocation_witness :
  let (rs, w4) :=
    AddAll never_fails firstFree live_thread
      [mkRequest 4096 hwbp_write hwbp_4; mkRequest 8192 hwbp_execute hwbp_8;
       mkRequest 16 hwbp_access hwbp_2; mkRequest 32 hwbp_access hwbp_8]
      idle_world in
  let (r5, w5) := AddHWBP never_fails firstFree live_thread 64 hwbp_write hwbp_1 w4 in
  let (removed, w6) := RemoveHWBP never_fails live_thread 2 w5 in
  let r6 := fst (AddHWBP never_fails firstFree live_thread 128 hwbp_write hwbp_2 w6) in
  length rs = 4%nat /\ NoDup rs /\ Forall (fun r => 0 <= r <= 3) rs /\
  r5 = -1 /\ removed = true /\ r6 = 2 /\
  (forall fails' t' a ty len w,
      fst (AddHWBP fails' firstFree t' a ty len w) = -1 \/
      0 <= fst (AddHWBP fails' firstFree t' a ty len w) <= 3) /\
  (forall fails' t' reqs' w,
      NoDup (successes (fst (AddAll fails' firstFree t' reqs' w)))).
Proof.
  apply (AddHWBP_slot_allocation never_fails live_thread
           [mkRequest 4096 hwbp_write hwbp_4; mkRequest 8192 hwbp_execute hwbp_8;
            mkRequest 16 hwbp_access hwbp_2; mkRequest 32 hwbp_access hwbp_8]
           (mkRequest 64 hwbp_write hwbp_1) (mkRequest 128 hwbp_write hwbp_2)
           2 idle_world).
  - split; intros; reflexivity.
  - discriminate.
  - intros i Hi. destruct (four_cases i Hi) as [-> | [-> | [-> | ->]]]; reflexivity.
  - reflexivity.
  - repeat constructor.
  - reflexivity.
  - lia.
Defined.

(** ** C5 *)

(** C5. Whatever length is requested, [AddHWBP] with type
    [hwbp_execute] either fails, leaving the registers alone, or returns a
    slot that now holds the address with type execute and the one-byte
    length, i.e. a zero length field; with access granted, an aligned
    address and a free slot it does return a slot. *)
Theorem execute_breakpoint_is_one_byte
    (fails : OsCall -> World -> bool) (pick : Z -> option Z) (t : Thread)
    (addr : ptr_t) (length : HWBPLength) (w : World) :
  selects_free pick -> selects_when_free pick ->
  let r  := fst (AddHWBP fails pick t addr hwbp_execute length w) in
  let w' := snd (AddHWBP fails pick t addr hwbp_execute length w) in
  ((r = -1 /\ registers w' = registers w) \/
   (0 <= r <= 3 /\
    slot r (registers w')
      = Occupied addr (HWBPType_value hwbp_execute) (HWBPLength_value hwbp_1) /\
    getLen r (Dr7 (registers w')) = 0)) /\
  (context_access_granted fails -> _handle t <> NULL ->
   aligned addr length = true ->
   (0 < free_count (Dr7 (registers w)))%nat ->
   0 <= r <= 3).
Proof.
  intros Hsound Hcomplete. cbn zeta. split.
  - destruct (AddHWBP_cases fails pick t addr hwbp_execute length w)
      as [Hfail | (i & Hpick & Hr & Hregs)]; [left; exact Hfail | right].
    destruct (Hsound _ _ Hpick) as [Hi _].
    rewrite Hr, Hregs. split; [exact Hi |].
    unfold slot. rewrite Dr7_after_add. cbn [effective_length].
    rewrite getLocal_encodeSlot, Z.eqb_refl by lia. cbn [orb].
    unfold after_add. rewrite getDr_setDr_same.
    rewrite getRW_encodeSlot, getLen_encodeSlot by lia.
    split; reflexivity.
  - intros Hgranted Hh Hal Hroom.
    pose proof (AddHWBP_granted fails pick t addr hwbp_execute length w
                  Hgranted Hh Hal) as Hstep.
    destruct (pick (Dr7 (registers w))) as [i |] eqn:Hpick.
    + destruct Hstep as [-> _]. exact (proj1 (Hsound _ _ Hpick)).
    + exfalso.
      assert (Hz : free_count (Dr7 (registers w)) = 0%nat)
        by (apply free_count_zero; exact (Hcomplete _ Hpick)).
      lia.
Qed.

Lemma execute_breakpoint_is_one_byte_witness :
  let r  := fst (AddHWBP never_fails firstFree live_thread 8192 hwbp_execute hwbp_8 idle_world) in
  let w' := snd (AddHWBP never_fails firstFree live_thread 8192 hwbp_execute hwbp_8 idle_world) in
  ((r = -1 /\ registers w' = registers idle_world) \/
   (0 <= r <= 3 /\
    slot r (registers w')
      = Occupied 8192 (HWBPType_value hwbp_execute) (HWBPLength_value hwbp_1) /\
    getLen r (Dr7 (registers w')) = 0)) /\
  (context_access_granted never_fails -> _handle live_thread <> NULL ->
   aligned 8192 hwbp_8 = true ->
   (0 < free_count (Dr7 (registers idle_world)))%nat ->
   0 <= r <= 3).
Proof.
  apply (execute_breakpoint_is_one_byte never_fails firstFree live_thread
           8192 hwbp_8 idle_world).
  - exact firstFree_selects_free.
  - exact firstFree_selects_when_free.
Defined.

(** ** C6 *)

(** C6. The debug-control value a successful [AddHWBP] leaves in the
    registers differs from the value found only in the fields of the slot
    [r] it returns: bit [2r] is set, bits [16+4r] and [17+4r] hold the
    type and bits [18+4r] and [19+4r] the length, every other bit is as
    before; the type patterns are execute 0, write 1, access 3 and the
    length patterns are 1 byte 0, 2 bytes 1, 8 bytes 2, 4 bytes 3. *)
Theorem debug_control_encoding
    (fails : OsCall -> World -> bool) (pick : Z -> option Z) (t : Thread)
    (addr : ptr_t) (type : HWBPType) (length : HWBPLength) (w : World) :
  let r  := fst (AddHWBP fails pick t addr type length w) in
  let d  := Dr7 (registers w) in
  let d' := Dr7 (registers (snd (AddHWBP fails pick t addr type length w))) in
  0 <= r ->
  (forall n, 0 <= n ->
     Z.testbit d' n =
     if (18 + 4 * r <=? n) && (n <? 20 + 4 * r)
     then Z.testbit (HWBPLength_value (effective_length type length)) (n - (18 + 4 * r))
     else if (16 + 4 * r <=? n) && (n <? 18 + 4 * r)
     then Z.testbit (HWBPType_value type) (n - (16 + 4 * r))
     else if n =? 2 * r then true
     else Z.testbit d n) /\
  Z.land (Z.shiftr d' (16 + 4 * r)) 3 = HWBPType_value type /\
  Z.land (Z.shiftr d' (18 + 4 * r)) 3
    = HWBPLength_value (effective_length type length) /\
  (HWBPType_value hwbp_execute = 0 /\ HWBPType_value hwbp_write = 1 /\
   HWBPType_value hwbp_access = 3) /\
  (HWBPLength_value hwbp_1 = 0 /\ HWBPLength_value hwbp_2 = 1 /\
   HWBPLength_value hwbp_8 = 2 /\ HWBPLength_value hwbp_4 = 3).
Proof.
  cbn zeta. intros Hr.
  destruct (AddHWBP_cases fails pick t addr type length w)
    as [[Hfail _] | (i & _ & Hri & Hregs)]; [lia |].
  rewrite Hri in *. rewrite Hregs, Dr7_after_add.
  split; [| split; [| split; [| repeat split]]].
  - intros n Hn. rewrite testbit_encodeSlot by lia.
    unfold lenShift, rwShift, enableBit.
    replace (18 + 4 * i + 2) with (20 + 4 * i) by lia.
    replace (16 + 4 * i + 2) with (18 + 4 * i) by lia.
    reflexivity.
  - apply (getRW_encodeSlot i type _ _ Hr).
  - apply (getLen_encodeSlot i type _ _ Hr).
Qed.

Lemma debug_control_encoding_witness :
  let r  := fst (AddHWBP never_fails firstFree live_thread 4096 hwbp_access hwbp_4 idle_world) in
  let d  := Dr7 (registers idle_world) in
  let d' := Dr7 (registers (snd (AddHWBP never_fails firstFree live_thread
                                   4096 hwbp_access hwbp_4 idle_world))) in
  (forall n, 0 <= n ->
     Z.testbit d' n =
     if (18 + 4 * r <=? n) && (n <? 20 + 4 * r)
     then Z.testbit (HWBPLength_value (effective_length hwbp_access hwbp_4)) (n - (18 + 4 * r))
     else if (16 + 4 * r <=? n) && (n <? 18 + 4 * r)
     then Z.testbit (HWBPType_value hwbp_access) (n - (16 + 4 * r))
     else if n =? 2 * r then true
     else Z.testbit d n) /\
  Z.land (Z.shiftr d' (16 + 4 * r)) 3 = HWBPType_value hwbp_access /\
  Z.land (Z.shiftr d' (18 + 4 * r)) 3
    = HWBPLength_value (effective_length hwbp_access hwbp_4) /\
  (HWBPType_value hwbp_execute = 0 /\ HWBPType_value hwbp_write = 1 /\
   HWBPType_value hwbp_access = 3) /\
  (HWBPLength_value hwbp_1 = 0 /\ HWBPLength_value hwbp_2 = 1 /\
   HWBPLength_value hwbp_8 = 2 /\ HWBPLength_value hwbp_4 = 3).
Proof.
  apply (debug_control_encoding never_fails firstFree live_thread
           4096 hwbp_access hwbp_4 idle_world).
  vm_compute. discriminate.
Defined.

(** ** C8 *)

Lemma findSlot_no_match (ptr : ptr_t) (c : CONTEXT) :
  (forall i a ty len, 0 <= i <= 3 -> slot i c = Occupied a ty len -> a <> ptr) ->
  findSlot ptr c = None.
Proof.
  intros Hno. unfold findSlot.
  assert (Hstep : forall i, 0 <= i <= 3 ->
                    getLocal i (Dr7 c) && (getDr i c =? ptr) = false).
  { intros i Hi. destruct (getLocal i (Dr7 c)) eqn:Hocc; [| reflexivity].
    cbn [andb]. apply Z.eqb_neq.
    apply (Hno i (getDr i c) (getRW i (Dr7 c)) (getLen i (Dr7 c)) Hi).
    unfold slot. now rewrite Hocc. }
  cbn [find].
  rewrite (Hstep 0), (Hstep 1), (Hstep 2), (Hstep 3) by lia. reflexivity.
Qed.

(** C8. When no occupied slot stores [ptr], [RemoveHWBP(ptr)] returns
    false and leaves the registers, hence occupancy, address, type and
    length of all four slots, as they were. *)
Theorem RemoveHWBP_ptr_no_match
    (fails : OsCall -> World -> bool) (t : Thread) (ptr : ptr_t) (w : World) :
  (forall i a ty len,
      0 <= i <= 3 -> slot i (registers w) = Occupied a ty len -> a <> ptr) ->
  fst (RemoveHWBP_ptr fails t ptr w) = false /\
  registers (snd (RemoveHWBP_ptr fails t ptr w)) = registers w /\
  (forall i, slot i (registers (snd (RemoveHWBP_ptr fails t ptr w)))
             = slot i (registers w)).
Proof.
  intros Hno.
  assert (Hkey : fst (RemoveHWBP_ptr fails t ptr w) = false /\
                 registers (snd (RemoveHWBP_ptr fails t ptr w)) = registers w).
  { unfold RemoveHWBP_ptr, bind, ret.
    pose proof (GetContext_registers fails t zero_context
                  CONTEXT_DEBUG_REGISTERS false w) as HR.
    pose proof (GetContext_result fails t zero_context
                  CONTEXT_DEBUG_REGISTERS false w) as HC.
    destruct (GetContext fails t zero_context CONTEXT_DEBUG_REGISTERS false w)
      as [[ok c] w1].
    cbn [fst snd] in *.
    destruct ok; cbn [negb]; [| split; [reflexivity | exact HR]].
    rewrite (HC eq_refl).
    rewrite (findSlot_no_match ptr (with_flags CONTEXT_DEBUG_REGISTERS (registers w))).
    - split; [reflexivity | exact HR].
    - intros i a ty len Hi Hslot. apply (Hno i a ty len Hi).
      exact Hslot. }
  destruct Hkey as [Hres Hregs].
  split; [exact Hres |]. split; [exact Hregs |].
  intros i. now rewrite Hregs.
Qed.

Lemma RemoveHWBP_ptr_no_match_witness :
  fst (RemoveHWBP_ptr never_fails live_thread 4096 one_breakpoint) = false /\
  registers (snd (RemoveHWBP_ptr never_fails live_thread 4096 one_breakpoint))
    = registers one_breakpoint /\
  (forall i, slot i (registers (snd (RemoveHWBP_ptr never_fails live_thread
                                       4096 one_breakpoint)))
             = slot i (registers one_breakpoint)).
Proof.
  apply (RemoveHWBP_ptr_no_match never_fails live_thread 4096 one_breakpoint).
  intros i a ty len Hi.
  destruct (four_cases i Hi) as [-> | [-> | [-> | ->]]];
    vm_compute; intros Hslot; try discriminate Hslot;
    injection Hslot as <- _ _; discriminate.
Defined.

(* ================================================================== *)
(** * Part III.  Further properties of the header's code               *)
(* ================================================================== *)

(** ** What one operation does to handles and cores *)

Lemma exec_handle (o : Op) (x : loc) (st : Store) :
  handle x (exec o st) =
  match o with
  | OpAssign this other =>
      if Nat.eqb x other then NULL
      else if Nat.eqb x this then handle other st else handle x st
  | OpReleaseHandle this => if Nat.eqb x this then NULL else handle x st
  | _ => handle x st
  end.
Proof.
  destruct o as [t | t | t u | t u | t]; cbn [exec]; try reflexivity.
  - destruct (Nat.eqb_spec x u) as [-> | Hxu].
    + store_simpl. reflexivity.
    + destruct (Nat.eqb_spec x t) as [-> | Hxt]; store_simpl; reflexivity.
  - destruct (Nat.eqb_spec x t) as [-> | Hxt]; store_simpl; reflexivity.
Qed.

Lemma exec_core (o : Op) (x : loc) (st : Store) :
  _core (exec o st x) =
  match o with
  | OpAssign this other =>
      if Nat.eqb this x then _core (st other) else _core (st x)
  | _ => _core (st x)
  end.
Proof.
  destruct o as [t | t | t u | t u | t]; cbn [exec]; try reflexivity.
  - destruct (Nat.eqb_spec t x) as [-> | Htx];
      destruct (Nat.eq_dec x u) as [-> | Hxu]; store_simpl; reflexivity.
  - destruct (Nat.eq_dec x t) as [-> | Hxt]; store_simpl; reflexivity.
Qed.

Lemma assign_handle (a b x : loc) (st : Store) :
  handle x (operator_assign a b st) =
  if Nat.eqb x b then NULL
  else if Nat.eqb x a then handle b st else handle x st.
Proof. exact (exec_handle (OpAssign a b) x st). Qed.

Lemma assign_id (a b x : loc) (st : Store) :
  id x (operator_assign a b st) = if Nat.eqb a x then id b st else id x st.
Proof. exact (exec_id (OpAssign a b) x st). Qed.

Lemma assign_core (a b x : loc) (st : Store) :
  _core (operator_assign a b st x) =
  if Nat.eqb a x then _core (st b) else _core (st x).
Proof. exact (exec_core (OpAssign a b) x st). Qed.

Lemma thread_eq (t u : Thread) :
  _core t = _core u -> _id t = _id u -> _handle t = _handle u -> t = u.
Proof. destruct t, u; cbn; intros -> -> ->; reflexivity. Qed.

(** ** Assignment between two objects *)

Lemma assign_distinct (a b : loc) (st : Store) :
  a <> b ->
  operator_assign a b st a = st b /\
  operator_assign a b st b = set_handle NULL (st b) /\
  (forall c : loc, c <> a -> c <> b -> operator_assign a b st c = st c).
Proof.
  intros Hab. split; [| split].
  - rewrite (assign_dest a b st Hab). now destruct (st b).
  - apply thread_eq.
    + rewrite assign_core.
      destruct (Nat.eqb_spec a b) as [E | _]; [contradiction | reflexivity].
    + change (id b (operator_assign a b st) = _id (set_handle NULL (st b))).
      rewrite assign_id.
      destruct (Nat.eqb_spec a b) as [E | _]; [contradiction | reflexivity].
    + apply assign_source_released.
  - intros c Hca Hcb. now apply assign_frame.
Qed.

(** X1. For distinct objects, [a = b] makes [a] a complete copy of what
    [b] was (core, id and handle), leaves [b] its core and id and resets
    only its handle, and touches no third object. *)
Theorem assign_complete_effect (a b : loc) (st : Store) :
  a <> b ->
  operator_assign a b st a = st b /\
  operator_assign a b st b = set_handle NULL (st b) /\
  (forall c : loc, c <> a -> c <> b -> operator_assign a b st c = st c).
Proof. exact (assign_distinct a b st). Qed.

Lemma assign_complete_effect_witness :
  operator_assign 0%nat 1%nat st_owned 0%nat = st_owned 1%nat /\
  operator_assign 0%nat 1%nat st_owned 1%nat = set_handle NULL (st_owned 1%nat) /\
  (forall c : loc, c <> 0%nat -> c <> 1%nat ->
     operator_assign 0%nat 1%nat st_owned c = st_owned c).
Proof.
  apply (assign_complete_effect 0%nat 1%nat st_owned). discriminate.
Defined.

(** X2. After [a = b] the two objects compare equal, in both orders and
    also when [a] and [b] are the same object; and every object that
    compared equal to [b] before compares equal to [a] and to [b]
    afterwards. *)
Theorem assign_makes_equal (a b c : loc) (st : Store) :
  operator_eq c b st = true ->
  operator_eq a b (operator_assign a b st) = true /\
  operator_eq b a (operator_assign a b st) = true /\
  operator_eq c a (operator_assign a b st) = true /\
  operator_eq c b (operator_assign a b st) = true.
Proof.
  unfold operator_eq. intros Hcb. apply Z.eqb_eq in Hcb.
  fold (id c st) in Hcb. fold (id b st) in Hcb.
  assert (Ha : id a (operator_assign a b st) = id b st)
    by (rewrite assign_id; now rewrite Nat.eqb_refl).
  assert (Hb : id b (operator_assign a b st) = id b st)
    by (rewrite assign_id; now destruct (Nat.eqb a b)).
  assert (Hc : id c (operator_assign a b st) = id b st)
    by (rewrite assign_id; now destruct (Nat.eqb a c)).
  unfold id in Ha, Hb, Hc. rewrite Ha, Hb, Hc.
  repeat split; apply Z.eqb_refl.
Qed.

Lemma assign_makes_equal_witness :
  operator_eq 0%nat 1%nat (operator_assign 0%nat 1%nat st_two) = true /\
  operator_eq 1%nat 0%nat (operator_assign 0%nat 1%nat st_two) = true /\
  operator_eq 2%nat 0%nat (operator_assign 0%nat 1%nat st_two) = true /\
  operator_eq 2%nat 1%nat (operator_assign 0%nat 1%nat st_two) = true.
Proof.
  apply (assign_makes_equal 0%nat 1%nat 2%nat st_two). reflexivity.
Defined.

(** X3. The source of an assignment is never valid afterwards, whatever
    its exit code is and also under self-assignment; the same holds after
    [ReleaseHandle]. *)
Theorem moved_from_is_not_valid (W : Type) (STILL_ACTIVE : DWORD)
    (ExitCode : Thread -> W -> DWORD) (a b : loc) (st : Store) (w : W) :
  valid W STILL_ACTIVE ExitCode b (operator_assign a b st) w = false /\
  valid W STILL_ACTIVE ExitCode b (ReleaseHandle b st) w = false.
Proof.
  unfold valid. split.
  - now rewrite assign_source_released.
  - unfold ReleaseHandle. now rewrite write_same.
Qed.

(** X4. For distinct objects, validity moves with the handle: after
    [a = b], [a.valid()] is what [b.valid()] was, and the validity of any
    third object is untouched. *)
Theorem validity_moves_with_handle (W : Type) (STILL_ACTIVE : DWORD)
    (ExitCode : Thread -> W -> DWORD) (a b : loc) (st : Store) (w : W) :
  a <> b ->
  valid W STILL_ACTIVE ExitCode a (operator_assign a b st) w
    = valid W STILL_ACTIVE ExitCode b st w /\
  (forall c : loc, c <> a -> c <> b ->
     valid W STILL_ACTIVE ExitCode c (operator_assign a b st) w
       = valid W STILL_ACTIVE ExitCode c st w).
Proof.
  intros Hab.
  destruct (assign_distinct a b st Hab) as (Ha & _ & Hframe).
  unfold valid. split.
  - now rewrite Ha.
  - intros c Hca Hcb. now rewrite (Hframe c Hca Hcb).
Qed.

Lemma validity_moves_with_handle_witness :
  valid unit 259 (fun _ _ => 259) 0%nat (operator_assign 0%nat 1%nat st_owned) tt
    = valid unit 259 (fun _ _ => 259) 1%nat st_owned tt /\
  (forall c : loc, c <> 0%nat -> c <> 1%nat ->
     valid unit 259 (fun _ _ => 259) c (operator_assign 0%nat 1%nat st_owned) tt
       = valid unit 259 (fun _ _ => 259) c st_owned tt).
Proof.
  apply (validity_moves_with_handle unit 259 (fun _ _ => 259)
           0%nat 1%nat st_owned tt).
  discriminate.
Defined.

(** ** Assignments composed *)

(** X5. Assigning twice from the same source loses the handle: after
    [a = b; a = b] neither object holds one, although [a] still carries
    the id of [b]. *)
Theorem assign_twice_loses_handle (a b : loc) (st : Store) :
  a <> b ->
  handle a (operator_assign a b (operator_assign a b st)) = NULL /\
  handle b (operator_assign a b (operator_assign a b st)) = NULL /\
  id a (operator_assign a b (operator_assign a b st)) = id b st.
Proof.
  intros Hab.
  assert (Hba : Nat.eqb b a = false) by (apply Nat.eqb_neq; congruence).
  assert (Hab' : Nat.eqb a b = false) by (now apply Nat.eqb_neq).
  rewrite !assign_handle, !assign_id.
  now rewrite !Nat.eqb_refl, ?Hab', ?Hba.
Qed.

Lemma assign_twice_loses_handle_witness :
  handle 0%nat (operator_assign 0%nat 1%nat (operator_assign 0%nat 1%nat st_owned)) = NULL /\
  handle 1%nat (operator_assign 0%nat 1%nat (operator_assign 0%nat 1%nat st_owned)) = NULL /\
  id 0%nat (operator_assign 0%nat 1%nat (operator_assign 0%nat 1%nat st_owned))
    = id 1%nat st_owned.
Proof.
  apply (assign_twice_loses_handle 0%nat 1%nat st_owned). discriminate.
Defined.

(** X6. Assigning there and back, [a = b; b = a], returns [b] to exactly
    what it was and leaves [a] as a copy of [b] without a handle. *)
Theorem assign_there_and_back (a b : loc) (st : Store) :
  a <> b ->
  operator_assign b a (operator_assign a b st) b = st b /\
  operator_assign b a (operator_assign a b st) a = set_handle NULL (st b).
Proof.
  intros Hab.
  assert (Hba : b <> a) by congruence.
  destruct (assign_distinct a b st Hab) as (Ha & Hb & _).
  destruct (assign_distinct b a (operator_assign a b st) Hba)
    as (Hb2 & Ha2 & _).
  split.
  - now rewrite Hb2, Ha.
  - now rewrite Ha2, Ha.
Qed.

Lemma assign_there_and_back_witness :
  operator_assign 1%nat 0%nat (operator_assign 0%nat 1%nat st_owned) 1%nat
    = st_owned 1%nat /\
  operator_assign 1%nat 0%nat (operator_assign 0%nat 1%nat st_owned) 0%nat
    = set_handle NULL (st_owned 1%nat).
Proof.
  apply (assign_there_and_back 0%nat 1%nat st_owned). discriminate.
Defined.

(** X7. A handle moves along a chain of assignments: after [a = b; c = a]
    with three different objects, [c] is what [b] was and neither [a] nor
    [b] holds a handle. *)
Theorem assign_chain (a b c : loc) (st : Store) :
  a <> b -> a <> c -> b <> c ->
  operator_assign c a (operator_assign a b st) c = st b /\
  handle a (operator_assign c a (operator_assign a b st)) = NULL /\
  handle b (operator_assign c a (operator_assign a b st)) = NULL.
Proof.
  intros Hab Hac Hbc.
  assert (Hca : c <> a) by congruence.
  destruct (assign_distinct a b st Hab) as (Ha & Hb & _).
  destruct (assign_distinct c a (operator_assign a b st) Hca)
    as (Hc2 & _ & Hframe2).
  split; [now rewrite Hc2, Ha |]. split.
  - unfold handle. apply assign_source_released.
  - unfold handle. rewrite (Hframe2 b) by congruence. now rewrite Hb.
Qed.

Lemma assign_chain_witness :
  operator_assign 2%nat 0%nat (operator_assign 0%nat 1%nat st_owned) 2%nat
    = st_owned 1%nat /\
  handle 0%nat (operator_assign 2%nat 0%nat (operator_assign 0%nat 1%nat st_owned)) = NULL /\
  handle 1%nat (operator_assign 2%nat 0%nat (operator_assign 0%nat 1%nat st_owned)) = NULL.
Proof.
  apply (assign_chain 0%nat 1%nat 2%nat st_owned); discriminate.
Defined.

(** ** Invariants of every sequence of operations *)

Lemma exec_exclusive (o : Op) (st : Store) :
  exclusive st -> exclusive (exec o st).
Proof.
  intros Hex p q Hpq. rewrite !exec_handle.
  destruct o as [t | t | t u | t u | t]; try (now apply Hex).
  - destruct (Nat.eqb_spec p u) as [-> | Hpu]; [congruence |].
    destruct (Nat.eqb_spec q u) as [-> | Hqu].
    + destruct (Nat.eqb p t); intros Hown; exact Hown.
    + destruct (Nat.eqb_spec p t) as [-> | Hpt];
        destruct (Nat.eqb_spec q t) as [-> | Hqt].
      * congruence.
      * intros Hown. apply Hex; [congruence | exact Hown].
      * intros Hown. apply Hex; [congruence | exact Hown].
      * now apply Hex.
  - destruct (Nat.eqb_spec p t) as [-> | Hpt]; [congruence |].
    destruct (Nat.eqb_spec q t) as [-> | Hqt].
    + intros Hown. exact Hown.
    + now apply Hex.
Qed.

(** X8. Exclusive ownership is kept: if no two objects hold the same
    non-null handle, no sequence of assignments, releases and observers
    makes two objects hold the same non-null handle. *)
Theorem run_keeps_exclusive (ops : list Op) (st : Store) :
  exclusive st -> exclusive (run ops st).
Proof.
  revert st. induction ops as [| o rest IH]; intros st Hex; cbn [run].
  - exact Hex.
  - apply IH. now apply exec_exclusive.
Qed.

Lemma st_owned_exclusive : exclusive st_owned.
Proof.
  intros p q Hpq.
  destruct p as [| [| p]]; destruct q as [| [| q]]; cbn;
    try discriminate; try congruence.
Qed.

Lemma run_keeps_exclusive_witness :
  exclusive (run [OpAssign 2%nat 0%nat; OpAssign 0%nat 1%nat;
                  OpReleaseHandle 2%nat; OpAssign 1%nat 1%nat] st_owned).
Proof.
  apply (run_keeps_exclusive
           [OpAssign 2%nat 0%nat; OpAssign 0%nat 1%nat;
            OpReleaseHandle 2%nat; OpAssign 1%nat 1%nat] st_owned).
  exact st_owned_exclusive.
Defined.

(** X9. The handle an object held before being assigned to is dropped,
    not kept anywhere: with exclusive ownership and distinct objects,
    after [a = b] no object holds the handle [a] owned. *)
Theorem assign_drops_destination_handle (a b p : loc) (st : Store) :
  a <> b -> exclusive st -> handle a st <> NULL ->
  handle p (operator_assign a b st) <> handle a st.
Proof.
  intros Hab Hex Hown. rewrite assign_handle.
  destruct (Nat.eqb_spec p b) as [-> | Hpb]; [congruence |].
  destruct (Nat.eqb_spec p a) as [-> | Hpa].
  - intros E. apply (Hex a b Hab Hown). now symmetry.
  - intros E. apply (Hex a p ltac:(congruence) Hown). now symmetry.
Qed.

Lemma assign_drops_destination_handle_witness :
  handle 0%nat (operator_assign 0%nat 1%nat st_owned) <> handle 0%nat st_owned.
Proof.
  apply (assign_drops_destination_handle 0%nat 1%nat 0%nat st_owned).
  - discriminate.
  - exact st_owned_exclusive.
  - discriminate.
Defined.

Lemma exec_origin (o : Op) (st : Store) (p : loc) :
  exists q : loc, exec o st p = st q \/ exec o st p = set_handle NULL (st q).
Proof.
  destruct o as [t | t | t u | t u | t]; cbn [exec];
    try (exists p; left; reflexivity).
  - destruct (Nat.eq_dec t u) as [-> | Htu].
    + destruct (Nat.eq_dec p u) as [-> | Hpu].
      * exists u. right. apply thread_eq.
        -- rewrite assign_core. now rewrite Nat.eqb_refl.
        -- change (id u (operator_assign u u st) = _id (st u)).
           rewrite assign_id. now rewrite Nat.eqb_refl.
        -- apply assign_source_released.
      * exists p. left. apply thread_eq.
        -- rewrite assign_core.
           destruct (Nat.eqb_spec u p); [congruence | reflexivity].
        -- change (id p (operator_assign u u st) = id p st).
           rewrite assign_id.
           destruct (Nat.eqb_spec u p); [congruence | reflexivity].
        -- change (handle p (operator_assign u u st) = handle p st).
           rewrite assign_handle.
           destruct (Nat.eqb_spec p u); [congruence | reflexivity].
    + destruct (assign_distinct t u st Htu) as (Ht & Hu & Hframe).
      destruct (Nat.eq_dec p t) as [-> | Hpt]; [exists u; now left |].
      destruct (Nat.eq_dec p u) as [-> | Hpu]; [exists u; now right |].
      exists p. left. now apply Hframe.
  - destruct (Nat.eq_dec p t) as [-> | Hpt].
    + exists t. right. unfold ReleaseHandle. now rewrite write_same.
    + exists p. left. unfold ReleaseHandle. now rewrite write_other.
Qed.

Lemma run_copy_of (ops : list Op) (st : Store) (p : loc) :
  exists q : loc,
    run ops st p = st q \/ run ops st p = set_handle NULL (st q).
Proof.
  revert st p. induction ops as [| o rest IH]; intros st p; cbn [run].
  - exists p. now left.
  - destruct (IH (exec o st) p) as [q1 Hq1].
    destruct (exec_origin o st q1) as [q Hq].
    exists q.
    destruct Hq1 as [-> | ->]; destruct Hq as [-> | ->]; auto.
Qed.

(** X10. Nothing is invented: after any sequence of operations every
    object is a copy of some object of the initial store, possibly with
    its handle reset; in particular its id and core are those of one and
    the same initial object, and a handle it holds was that object's. *)
Theorem run_origin (ops : list Op) (st : Store) (p : loc) :
  exists q : loc,
    run ops st p = st q \/ run ops st p = set_handle NULL (st q).
Proof. exact (run_copy_of ops st p). Qed.

(** X11. Objects that carry the same id keep referring to the same owning
    process: if that holds of the initial store, it holds after every
    sequence of operations, so objects that compare equal with [==] share
    their core. *)
Theorem run_keeps_coherent (ops : list Op) (st : Store) :
  coherent st -> coherent (run ops st).
Proof.
  intros Hco p q.
  destruct (run_copy_of ops st p) as [p0 Hp].
  destruct (run_copy_of ops st q) as [q0 Hq].
  unfold id.
  destruct Hp as [-> | ->]; destruct Hq as [-> | ->];
    cbn [set_handle _id _core]; apply Hco.
Qed.

Lemma st_owned_coherent : coherent st_owned.
Proof.
  intros p q.
  destruct p as [| [| p]]; destruct q as [| [| q]]; cbn;
    intros E; try discriminate E; reflexivity.
Qed.

Lemma run_keeps_coherent_witness :
  coherent (run [OpAssign 2%nat 0%nat; OpAssign 0%nat 1%nat;
                 OpReleaseHandle 2%nat] st_owned).
Proof.
  apply (run_keeps_coherent
           [OpAssign 2%nat 0%nat; OpAssign 0%nat 1%nat; OpReleaseHandle 2%nat]
           st_owned).
  exact st_owned_coherent.
Defined.

(** ** Comparison *)

(** X12. [==] is an equivalence on objects: reflexive, symmetric and
    transitive; and releasing the handle of any object never changes the
    outcome of any comparison. *)
Theorem operator_eq_equivalence (a b c x : loc) (st : Store) :
  operator_eq a a st = true /\
  operator_eq a b st = operator_eq b a st /\
  (operator_eq a b st = true -> operator_eq b c st = true ->
   operator_eq a c st = true) /\
  operator_eq a b (ReleaseHandle x st) = operator_eq a b st.
Proof.
  unfold operator_eq.
  split; [apply Z.eqb_refl |].
  split; [apply Z.eqb_sym |].
  split.
  - intros Hab Hbc. apply Z.eqb_eq in Hab. apply Z.eqb_eq in Hbc.
    apply Z.eqb_eq. congruence.
  - pose proof (exec_id (OpReleaseHandle x) a st) as Ea.
    pose proof (exec_id (OpReleaseHandle x) b st) as Eb.
    cbn [exec] in Ea, Eb. unfold id in Ea, Eb. now rewrite Ea, Eb.
Qed.

(** ** The macros and the enumerations *)

Lemma land_all_ones (n x : Z) :
  0 <= n -> 0 <= x < 2 ^ n -> Z.land x (2 ^ n - 1) = x.
Proof.
  intros Hn Hx. replace (2 ^ n - 1) with (Z.ones n)
    by (rewrite Z.ones_equiv; lia).
  rewrite Z.land_ones by exact Hn. now apply Z.mod_small.
Qed.

(** X13. [MAXULONG64_2] and [MAXULONG32_2] are the all-ones values of
    their widths: every 64-bit (32-bit) value is at most the constant and
    is unchanged by a bitwise AND with it, and adding one wraps to zero. *)
Theorem MAXULONG_all_ones (x y : Z) :
  0 <= x < 2 ^ 64 -> 0 <= y < 2 ^ 32 ->
  x <= MAXULONG64_2 /\ Z.land x MAXULONG64_2 = x /\
  to_uint64 (MAXULONG64_2 + 1) = 0 /\
  y <= MAXULONG32_2 /\ Z.land y MAXULONG32_2 = y /\
  to_uint32 (MAXULONG32_2 + 1) = 0.
Proof.
  intros Hx Hy.
  assert (E64 : MAXULONG64_2 = 2 ^ 64 - 1) by reflexivity.
  assert (E32 : MAXULONG32_2 = 2 ^ 32 - 1) by reflexivity.
  rewrite E64, E32.
  split; [lia |]. split; [apply land_all_ones; lia |].
  split; [reflexivity |].
  split; [lia |]. split; [apply land_all_ones; lia | reflexivity].
Qed.

Lemma MAXULONG_all_ones_witness :
  4660 <= MAXULONG64_2 /\ Z.land 4660 MAXULONG64_2 = 4660 /\
  to_uint64 (MAXULONG64_2 + 1) = 0 /\
  22136 <= MAXULONG32_2 /\ Z.land 22136 MAXULONG32_2 = 22136 /\
  to_uint32 (MAXULONG32_2 + 1) = 0.
Proof.
  apply (MAXULONG_all_ones 4660 22136); lia.
Defined.

(** X15. The enumerators fit the two-bit fields of the debug-control
    register without loss: the values of [HWBPType] and of [HWBPLength]
    lie in [0,3] and different enumerators have different values; no
    type has the value 2, every value in [0,3] is a length, and the
    lengths are not ordered by size, [hwbp_8] having a smaller value than
    [hwbp_4]. *)
Theorem enumerator_values :
  (forall t : HWBPType, 0 <= HWBPType_value t <= 3 /\ HWBPType_value t <> 2) /\
  (forall t1 t2 : HWBPType, HWBPType_value t1 = HWBPType_value t2 -> t1 = t2) /\
  (forall l : HWBPLength, 0 <= HWBPLength_value l <= 3) /\
  (forall l1 l2 : HWBPLength,
      HWBPLength_value l1 = HWBPLength_value l2 -> l1 = l2) /\
  (forall v : Z, 0 <= v <= 3 -> exists l : HWBPLength, HWBPLength_value l = v) /\
  HWBPLength_value hwbp_8 < HWBPLength_value hwbp_4.
Proof.
  split; [intros []; cbn; lia |].
  split; [intros [] []; cbn; intros E; try discriminate E; reflexivity |].
  split; [intros []; cbn; lia |].
  split; [intros [] []; cbn; intros E; try discriminate E; reflexivity |].
  split; [| reflexivity].
  intros v Hv. destruct (four_cases v Hv) as [-> | [-> | [-> | ->]]].
  - now exists hwbp_1.
  - now exists hwbp_2.
  - now exists hwbp_8.
  - now exists hwbp_4.
Qed.
